(** * object-mapper: [mapAndValidate]

    A shallow embedding of [src/map-and-validate.ts] and the properties of
    its specification.

    The function walks the keys of a mapping object, reads one value per
    entry out of a nested source with lodash's [get], optionally applies a
    caller-supplied [transform], stores the value in a fresh object and
    hands that object to [schema.safeParse].  Two things can be observed
    from outside: the value returned (or the exception thrown), and the
    calls made to caller-supplied code.  Both are kept by the [Run] monad
    below. *)

From Stdlib Require Import String Ascii List Bool Arith ZArith Lia Permutation.
Import ListNotations.
Local Open Scope string_scope.

(** ** JavaScript objects

    An object is the list of its own enumerable string-keyed properties in
    the order [Object.keys] reports them; keys are pairwise distinct
    ([wf_object]).  The prototype of an object is not represented. *)

Definition JsObject (A : Type) : Type := list (string * A).

(** [Object.keys(o)] *)
Definition own_keys {A : Type} (o : JsObject A) : list string := map fst o.

Definition wf_object {A : Type} (o : JsObject A) : Prop := NoDup (own_keys o).

(** [o[k]], [None] standing for a property that is not there. *)
Fixpoint prop_get {A : Type} (o : JsObject A) (k : string) : option A :=
  match o with
  | [] => None
  | (k', v) :: rest => if String.eqb k k' then Some v else prop_get rest k
  end.

(** [o[k] = v]: an existing property keeps its place, a new one goes last. *)
Fixpoint prop_set {A : Type} (o : JsObject A) (k : string) (v : A) : JsObject A :=
  match o with
  | [] => [(k, v)]
  | (k', v') :: rest =>
      if String.eqb k k' then (k, v) :: rest else (k', v') :: prop_set rest k v
  end.

(** [o[k] = v] on an object made by [{}].  [__proto__] is an accessor
    inherited from [Object.prototype]: assigning to it creates no own
    property (it replaces the prototype when [v] is an object or [null] and
    does nothing otherwise).  Every other key is set as a property. *)
Definition assign {A : Type} (o : JsObject A) (k : string) (v : A) : JsObject A :=
  if String.eqb k "__proto__" then o else prop_set o k v.

(** [delete o[k]] *)
Fixpoint prop_delete {A : Type} (o : JsObject A) (k : string) : JsObject A :=
  match o with
  | [] => []
  | (k', v') :: rest =>
      if String.eqb k k' then prop_delete rest k else (k', v') :: prop_delete rest k
  end.

(** ** Values *)

Local Set Warnings "-register-all".

Inductive Value : Type :=
| VUndefined
| VNull
| VBool (b : bool)
| VNum (n : Z)
| VStr (s : string)
| VArr (items : list Value)
| VObj (fields : list (string * Value)).

(** [v === undefined] *)
Definition is_undefined (v : Value) : bool :=
  match v with VUndefined => true | _ => false end.

(** [v == null] *)
Definition is_nullish (v : Value) : bool :=
  match v with VUndefined | VNull => true | _ => false end.

(** ** Exceptions and calls to caller-supplied code *)

(** A JavaScript computation returns a value or throws one. *)
Inductive Exc (A : Type) : Type :=
| Return (a : A)
| Throw (thrown : Value).
Arguments Return {A} a.
Arguments Throw {A} thrown.

(** The calls [mapAndValidate] makes to code it was handed: the transform
    of the entry under [key], applied to [arg], and the schema's
    [safeParse], applied to the assembled object. *)
Inductive Event : Type :=
| CallTransform (key : string) (arg : Value)
| CallSafeParse (candidate : JsObject Value).

Record Run (A : Type) : Type := mkRun {
  calls : list Event;
  outcome : Exc A
}.
Arguments mkRun {A} calls outcome.
Arguments calls {A} r.
Arguments outcome {A} r.

Definition ret {A : Type} (a : A) : Run A := mkRun [] (Return a).

Definition bind {A B : Type} (m : Run A) (f : A -> Run B) : Run B :=
  match outcome m with
  | Return a => let r := f a in mkRun (calls m ++ calls r) (outcome r)
  | Throw x => mkRun (calls m) (Throw x)
  end.

Notation "x <- m ;; k" := (bind m (fun x => k))
  (at level 61, m at next level, right associativity).

(** ** The mapping declaration *)

(** [type PathMapping<T, R>]: optional members are [option]s. *)
Record PathMapping : Type := mkPathMapping {
  path : string;
  default : option Value;
  transform : option (Value -> Exc Value)
}.

(** [type Mappings]: what is stored under a key is an entry object, or
    [None] for a falsy value ([undefined], [null]) that the index signature
    lets through at run time. *)
Definition Mappings : Type := JsObject (option PathMapping).

(** [mapping[key]] when it is truthy. *)
Definition entry_of (mapping : Mappings) (key : string) : option PathMapping :=
  match prop_get mapping key with
  | Some (Some entry) => Some entry
  | _ => None
  end.

(** What destructuring binds to [defaultVal]. *)
Definition defaultVal (entry : PathMapping) : Value :=
  match default entry with
  | Some d => d
  | None => VUndefined
  end.

Definition call_transform (key : string) (t : Value -> Exc Value) (arg : Value)
  : Run Value :=
  mkRun [CallTransform key arg] (t arg).

Section Mapper.

(** [$ZodIssue]: opaque to the mapper. *)
Variable Issue : Type.

(** lodash's walk along a path ([baseGet] after [castPath]); [VUndefined]
    when a segment is missing. *)
Variable baseGet : Value -> string -> Value.

(** Modelled from the spec: what a path resolves to in lodash's [get],
    which the repository imports and does not contain; nothing resolves in
    a source that is [null] or [undefined]. *)
Definition resolved (object : Value) (p : string) : Value :=
  if is_nullish object then VUndefined else baseGet object p.

(** Modelled from the spec: lodash's [get(object, path, defaultValue)],
    which the repository imports and does not contain.  The default
    replaces a resolution that is missing (absent key, absent index or
    an explicit [undefined]); every other resolved value is returned. *)
Definition get (object : Value) (p : string) (defaultValue : Value) : Value :=
  let result := resolved object p in
  if is_undefined result then defaultValue else result.

(** What [schema.safeParse] returns: [{success: true, data}] or
    [{success: false, error: {issues}}]. *)
Inductive SafeParseResult : Type :=
| ParseSuccess (parsed_data : Value)
| ParseFailure (issues : list Issue).

(** [ZodType]: the one method the mapper uses. *)
Record ZodType : Type := mkZodType {
  safeParse : JsObject Value -> SafeParseResult
}.

(** The object literal [mapAndValidate] returns; [VUndefined] and [None]
    are [undefined]. *)
Record MapResult : Type := mkMapResult {
  data : Value;
  isError : bool;
  errors : option (list Issue)
}.

Definition call_safeParse (schema : ZodType) (candidate : JsObject Value)
  : Run SafeParseResult :=
  mkRun [CallSafeParse candidate] (Return (safeParse schema candidate)).

(** The body of the loop for one entry object: lines 67-71. *)
Definition field_value (obj : Value) (key : string) (entry : PathMapping)
  : Run Value :=
  let val := get obj (path entry) (defaultVal entry) in
  match transform entry with
  | Some t => call_transform key t val
  | None => ret val
  end.

(** [for (const key of Object.keys(mapping))], over the keys still to
    visit, with [result] the object built so far. *)
Fixpoint extract (obj : Value) (mapping : Mappings) (keys : list string)
         (result : JsObject Value) : Run (JsObject Value) :=
  match keys with
  | [] => ret result
  | key :: rest =>
      match entry_of mapping key with
      | Some entry =>
          val <- field_value obj key entry ;;
          extract obj mapping rest (assign result key val)
      | None => extract obj mapping rest result
      end
  end.

(** Lines 78-86. *)
Definition to_result (parsed : SafeParseResult) : MapResult :=
  match parsed with
  | ParseSuccess d => mkMapResult d false None
  | ParseFailure issues => mkMapResult VUndefined true (Some issues)
  end.

(** Lines 62-74: the object assembled before validation. *)
Definition candidate (obj : Value) (mapping : Mappings) : Run (JsObject Value) :=
  extract obj mapping (own_keys mapping) [].

Definition mapAndValidate (obj : Value) (mapping : Mappings) (schema : ZodType)
  : Run MapResult :=
  result <- candidate obj mapping ;;
  parsed <- call_safeParse schema result ;;
  ret (to_result parsed).

(** The two shapes of the returned object: the success object holding
    [d], the failure object holding [issues]. *)
Definition is_success (r : MapResult) (d : Value) : Prop :=
  isError r = false /\ data r = d /\ errors r = None.

Definition is_failure (r : MapResult) (issues : list Issue) : Prop :=
  isError r = true /\ data r = VUndefined /\ errors r = Some issues.

(** Every transform of the mapping returns on the value it is given. *)
Definition transforms_return (obj : Value) (mapping : Mappings) : Prop :=
  forall key entry t,
    entry_of mapping key = Some entry ->
    transform entry = Some t ->
    exists v, t (get obj (path entry) (defaultVal entry)) = Return v.

(** A validator that does not look at the order of the keys of the
    object it is given. *)
Definition order_insensitive (schema : ZodType) : Prop :=
  forall c c' : JsObject Value,
    wf_object c -> Permutation c c' -> safeParse schema c = safeParse schema c'.

End Mapper.

Arguments ParseSuccess {Issue} parsed_data.
Arguments ParseFailure {Issue} issues.
Arguments mkZodType {Issue} safeParse.
Arguments safeParse {Issue} z candidate.
Arguments mkMapResult {Issue} data isError errors.
Arguments data {Issue} m.
Arguments isError {Issue} m.
Arguments errors {Issue} m.
Arguments to_result {Issue} parsed.
Arguments call_safeParse {Issue} schema candidate.
Arguments mapAndValidate {Issue} baseGet obj mapping schema.
Arguments is_success {Issue} r d.
Arguments is_failure {Issue} r issues.
Arguments order_insensitive {Issue} schema.

(** Two mappings that cannot be told apart by running them: same keys in
    the same order, same paths and defaults, transforms that agree on
    every argument. *)
Definition same_transform (t1 t2 : option (Value -> Exc Value)) : Prop :=
  match t1, t2 with
  | Some f1, Some f2 => forall v, f1 v = f2 v
  | None, None => True
  | _, _ => False
  end.

Definition same_entry (e1 e2 : PathMapping) : Prop :=
  path e1 = path e2 /\ default e1 = default e2
  /\ same_transform (transform e1) (transform e2).

Definition same_slot (s1 s2 : string * option PathMapping) : Prop :=
  fst s1 = fst s2 /\
  match snd s1, snd s2 with
  | Some e1, Some e2 => same_entry e1 e2
  | None, None => True
  | _, _ => False
  end.

Definition same_mapping (m1 m2 : Mappings) : Prop := Forall2 same_slot m1 m2.

Definition same_schema {Issue : Type} (s1 s2 : ZodType Issue) : Prop :=
  forall c, safeParse s1 c = safeParse s2 c.

(** [if (entry)] for the value under [key]. *)
Definition has_entry (mapping : Mappings) (key : string) : bool :=
  match entry_of mapping key with Some _ => true | None => false end.

(** The keys of a mapping that hold an entry object, in order. *)
Definition entry_keys (mapping : Mappings) : list string :=
  own_keys (filter (fun slot => match snd slot with Some _ => true | None => false end)
                   mapping).

(** Whether the loop stores a property under [key]. *)
Definition is_stored (mapping : Mappings) (key : string) : bool :=
  andb (has_entry mapping key) (negb (String.eqb key "__proto__")).

(** The keys under which the loop stores a property. *)
Definition stored_keys (mapping : Mappings) : list string :=
  filter (fun k => negb (String.eqb k "__proto__")) (entry_keys mapping).

(** ** The call in a heap

    The same function with the allocation of [result] written out: the
    heap holds the objects that exist when the call starts, by address,
    [{}] allocates a new one, [result[key] = val] updates it in place and
    [safeParse] is handed what the heap holds at that address. *)

Definition Heap : Type := list (JsObject Value).

(** [{}]: a new empty object at the next free address. *)
Definition alloc (h : Heap) : nat * Heap := (length h, (h ++ [[]])%list).

Definition load (h : Heap) (address : nat) : JsObject Value := nth address h [].

Fixpoint store (h : Heap) (address : nat) (o : JsObject Value) : Heap :=
  match h, address with
  | [], _ => []
  | _ :: rest, O => o :: rest
  | o' :: rest, S address' => o' :: store rest address' o
  end.

(** The loop, with [result] an address. *)
Fixpoint extract_in (baseGet : Value -> string -> Value) (obj : Value)
         (mapping : Mappings) (keys : list string) (result : nat) (h : Heap)
  : Run Heap :=
  match keys with
  | [] => ret h
  | key :: rest =>
      match entry_of mapping key with
      | Some entry =>
          val <- field_value baseGet obj key entry ;;
          extract_in baseGet obj mapping rest result
                     (store h result (assign (load h result) key val))
      | None => extract_in baseGet obj mapping rest result h
      end
  end.

(** [mapAndValidate] started in heap [h]; it returns its result and the
    heap it leaves. *)
Definition mapAndValidate_in {Issue : Type} (baseGet : Value -> string -> Value)
           (h : Heap) (obj : Value) (mapping : Mappings) (schema : ZodType Issue)
  : Run (MapResult Issue * Heap) :=
  let (result, h0) := alloc h in
  h1 <- extract_in baseGet obj mapping (own_keys mapping) result h0 ;;
  parsed <- call_safeParse schema (load h1 result) ;;
  ret (to_result parsed, h1).

(** ** A path walker and a few schemas to run the mapper on *)

Module Lodash.

(** Modelled from the spec: the splitter of a path descriptor, over
    [.]-delimited segments. *)
Fixpoint stringToPath_from (s : string) (segment : string) : list string :=
  match s with
  | EmptyString => [segment]
  | String c rest =>
      if Ascii.eqb c "."%char
      then segment :: stringToPath_from rest ""
      else stringToPath_from rest (segment ++ String c "")
  end.

Definition stringToPath (s : string) : list string := stringToPath_from s "".

Definition digit_of (c : Ascii.ascii) : option nat :=
  let n := Ascii.nat_of_ascii c in
  if andb (48 <=? n)%nat (n <=? 57)%nat then Some (n - 48)%nat else None.

Fixpoint decimal_from (s : string) (acc : nat) : option nat :=
  match s with
  | EmptyString => Some acc
  | String c rest =>
      match digit_of c with
      | Some d => decimal_from rest (10 * acc + d)%nat
      | None => None
      end
  end.

(** A segment that names a position of an array: a decimal numeral
    without a leading zero. *)
Definition array_index (segment : string) : option nat :=
  match segment with
  | EmptyString => None
  | String c rest =>
      if andb (Ascii.eqb c "0"%char) (negb (String.eqb rest ""))
      then None
      else decimal_from segment 0
  end.

(** Modelled from the spec: nested object traversal and positional
    indexing along the segments; a missing segment gives [VUndefined]. *)
Fixpoint walk (segments : list string) (object : Value) : Value :=
  match segments with
  | [] => object
  | segment :: rest =>
      match object with
      | VObj fields =>
          match prop_get fields segment with
          | Some v => walk rest v
          | None => VUndefined
          end
      | VArr items =>
          match array_index segment with
          | Some i =>
              match nth_error items i with
              | Some v => walk rest v
              | None => VUndefined
              end
          | None => VUndefined
          end
      | _ => VUndefined
      end
  end.

Definition baseGet (object : Value) (p : string) : Value :=
  walk (stringToPath p) object.

End Lodash.

Module Zod.

(** The issues of the schemas below: a fragment of [$ZodIssue]. *)
Inductive Issue : Type :=
| invalid_type (expected : string) (at_path : list string)
| unrecognized_keys (keys : list string).

Inductive FieldType : Type := z_string | z_int.

Definition conforms (t : FieldType) (v : Value) : bool :=
  match t, v with
  | z_string, VStr _ => true
  | z_int, VNum _ => true
  | _, _ => false
  end.

Definition type_name (t : FieldType) : string :=
  match t with z_string => "string" | z_int => "number" end.

(** One pass over the shape, collecting the accepted fields and the
    issues in shape order. *)
Fixpoint check_shape (shape : JsObject FieldType) (candidate : JsObject Value)
  : JsObject Value * list Issue :=
  match shape with
  | [] => ([], [])
  | (k, t) :: rest =>
      let (fields, issues) := check_shape rest candidate in
      match prop_get candidate k with
      | Some v =>
          if conforms t v then ((k, v) :: fields, issues)
          else (fields, invalid_type (type_name t) [k] :: issues)
      | None => (fields, invalid_type (type_name t) [k] :: issues)
      end
  end.

(** [z.object(shape)]: unknown keys are dropped. *)
Definition object (shape : JsObject FieldType) : ZodType Issue :=
  mkZodType (fun candidate =>
    match check_shape shape candidate with
    | (fields, []) => ParseSuccess (VObj fields)
    | (_, issues) => ParseFailure issues
    end).

(** [z.strictObject({})]: every key of the input is unrecognized, and is
    reported in the order the input has it. *)
Definition strictObject_empty : ZodType Issue :=
  mkZodType (fun candidate =>
    match candidate with
    | [] => ParseSuccess (VObj [])
    | _ => ParseFailure [unrecognized_keys (own_keys candidate)]
    end).

(** [z.object({}).transform(() => undefined)]: accepts, and its output
    is [undefined]. *)
Definition to_undefined : ZodType Issue :=
  mkZodType (fun _ => ParseSuccess VUndefined).

End Zod.

(** [mapAndValidate] with the walker above. *)
Definition run_mapAndValidate {Issue : Type} :=
  @mapAndValidate Issue Lodash.baseGet.

Module Samples.

Definition entry (p : string) : PathMapping := mkPathMapping p None None.

Definition entry_default (p : string) (d : Value) : PathMapping :=
  mkPathMapping p (Some d) None.

(** [(v) => v.toUpperCase()] on the letters of the tests; a receiver
    without the method makes the call throw. *)
Definition upper_char (c : Ascii.ascii) : Ascii.ascii :=
  let n := Ascii.nat_of_ascii c in
  if andb (97 <=? n)%nat (n <=? 122)%nat then Ascii.ascii_of_nat (n - 32) else c.

Fixpoint upper (s : string) : string :=
  match s with
  | EmptyString => EmptyString
  | String c rest => String (upper_char c) (upper rest)
  end.

Definition toUpperCase (v : Value) : Exc Value :=
  match v with
  | VStr s => Return (VStr (upper s))
  | _ => Throw (VStr "TypeError: v.toUpperCase is not a function")
  end.

(** First test of the suite. *)
Definition alice : Value :=
  VObj [("user", VObj [("name", VStr "Alice"); ("age", VNum 25)])].

Definition alice_mapping : Mappings :=
  [ ("name", Some (entry_default "user.name" (VStr "Unknown")));
    ("email", Some (entry_default "user.email" (VStr "email@gmail.com")));
    ("age", Some (entry_default "user.age" (VNum 0))) ].

(** The format of the e-mail address is not checked here. *)
Definition alice_schema : ZodType Zod.Issue :=
  Zod.object [("name", Zod.z_string); ("email", Zod.z_string); ("age", Zod.z_int)].

(** Second test: positions of an array. *)
Definition users : Value :=
  VObj [("users", VArr [ VObj [("name", VStr "Bob"); ("age", VNum 30)];
                         VObj [("name", VStr "Carol"); ("age", VNum 28)] ])].

Definition users_mapping : Mappings :=
  [ ("firstUserName", Some (entry_default "users.0.name" (VStr "Unknown")));
    ("secondUserAge", Some (entry_default "users.1.age" (VNum 0)));
    ("thirdUserName", Some (entry_default "users.2.name" (VStr "NoName"))) ].

Definition users_schema : ZodType Zod.Issue :=
  Zod.object [("firstUserName", Zod.z_string); ("secondUserAge", Zod.z_int);
              ("thirdUserName", Zod.z_string)].

(** Fourth test: a value of the wrong type. *)
Definition bad_age : Value :=
  VObj [("user", VObj [("name", VStr "Alice"); ("age", VStr "not-a-number")])].

Definition bad_age_mapping : Mappings :=
  [ ("name", Some (entry_default "user.name" (VStr "Unknown")));
    ("age", Some (entry_default "user.age" (VNum 0))) ].

Definition bad_age_schema : ZodType Zod.Issue :=
  Zod.object [("name", Zod.z_string); ("age", Zod.z_int)].

(** Fifth test: a transform. *)
Definition upper_entry : PathMapping :=
  mkPathMapping "user.name" (Some (VStr "Unknown")) (Some toUpperCase).

Definition upper_mapping : Mappings := [ ("name", Some upper_entry) ].

Definition name_schema : ZodType Zod.Issue := Zod.object [("name", Zod.z_string)].

(** The first mapping with its properties in another order. *)
Definition alice_mapping_swapped : Mappings :=
  [ ("age", Some (entry_default "user.age" (VNum 0)));
    ("name", Some (entry_default "user.name" (VStr "Unknown")));
    ("email", Some (entry_default "user.email" (VStr "email@gmail.com"))) ].

(** A mapping with a key that holds no entry object. *)
Definition sparse_mapping : Mappings :=
  [ ("name", Some (entry_default "user.name" (VStr "Unknown")));
    ("nickname", None) ].

(** Two mappings with the same properties, written in two orders. *)
Definition ab_mapping : Mappings := [ ("a", Some (entry "x")); ("b", Some (entry "y")) ].
Definition ba_mapping : Mappings := [ ("b", Some (entry "y")); ("a", Some (entry "x")) ].



(** A transform that throws on a number, after one that returns. *)
Definition throwing_mapping : Mappings :=
  [ ("name", Some (mkPathMapping "user.name" None (Some toUpperCase)));
    ("age", Some (mkPathMapping "user.age" None (Some toUpperCase)));
    ("email", Some (mkPathMapping "user.email" (Some (VStr "none")) (Some toUpperCase))) ].

(** [toUpperCase] behind a wrapper that rethrows what it catches. *)
Definition toUpperCase' (v : Value) : Exc Value :=
  match toUpperCase v with
  | Return r => Return r
  | Throw x => Throw x
  end.

Definition upper_mapping' : Mappings :=
  [ ("name", Some (mkPathMapping "user.name" (Some (VStr "Unknown")) (Some toUpperCase'))) ].

(** The first source with data no mapping asks for. *)
Definition alice_extra : Value :=
  VObj [("session", VStr "s1");
        ("user", VObj [("name", VStr "Alice"); ("age", VNum 25); ("role", VStr "admin")])].

(** A mapping to put after [upper_mapping]. *)
Definition age_mapping : Mappings :=
  [ ("age", Some (entry_default "user.age" (VNum 0))) ].

(** A mapping with the own key [__proto__], as [JSON.parse] builds it. *)
Definition proto_mapping : Mappings :=
  [ ("__proto__", Some (entry_default "user.name" (VStr "Unknown"))) ].


(** A mapping none of whose keys holds an entry object. *)
Definition hollow_mapping : Mappings := [ ("name", None); ("age", None) ].

End Samples.

(** The field-independence property with nothing asked of the validator
    beyond being a function. *)
Definition order_never_matters : Prop :=
  forall (Issue : Type) (baseGet : Value -> string -> Value)
         (obj : Value) (m1 m2 : Mappings) (schema : ZodType Issue),
    wf_object m1 -> Permutation m1 m2 ->
    transforms_return baseGet obj m1 ->
    outcome (mapAndValidate baseGet obj m1 schema)
    = outcome (mapAndValidate baseGet obj m2 schema).

(** A returned result has a value or issues, never neither. *)
Definition success_carries_a_value : Prop :=
  forall (Issue : Type) (baseGet : Value -> string -> Value) (obj : Value)
         (mapping : Mappings) (schema : ZodType Issue) (r : MapResult Issue),
    outcome (mapAndValidate baseGet obj mapping schema) = Return r ->
    (isError r = false /\ data r <> VUndefined /\ errors r = None)
    \/ (isError r = true /\ data r = VUndefined /\ exists issues, errors r = Some issues).






(** ** The call log *)

(** The transform calls declared under [keys], in that order: one for
    every key whose entry has a transform, on the value read for it. *)
Definition transform_calls (baseGet : Value -> string -> Value) (obj : Value)
           (mapping : Mappings) (keys : list string) : list Event :=
  flat_map (fun key =>
              match entry_of mapping key with
              | Some e =>
                  match transform e with
                  | Some _ => [CallTransform key (get baseGet obj (path e) (defaultVal e))]
                  | None => []
                  end
              | None => []
              end) keys.

(** The keys whose transforms a log shows as called. *)
Definition called_keys (log : list Event) : list string :=
  flat_map (fun ev =>
              match ev with
              | CallTransform key _ => [key]
              | CallSafeParse _ => []
              end) log.

(** ** Tactics for concrete mappings *)

Ltac solve_wf := unfold wf_object; simpl; repeat constructor; simpl; intuition discriminate.

Ltac solve_transforms_return :=
  let key := fresh "key" in
  let e := fresh "e" in
  let t := fresh "t" in
  let He := fresh "He" in
  let Ht := fresh "Ht" in
  intros key e t He Ht; unfold entry_of in He; simpl in He;
  repeat match type of He with
         | context [String.eqb key ?k] =>
             destruct (String.eqb key k);
             [ injection He as <-; simpl in Ht;
               first [ discriminate | injection Ht as <-; eexists; reflexivity ] | ]
         end;
  discriminate.

(** ** The tests of the repository, run on the model *)

Example test_mapped_values :
  outcome (run_mapAndValidate Samples.alice Samples.alice_mapping Samples.alice_schema)
  = Return (mkMapResult
              (VObj [("name", VStr "Alice"); ("email", VStr "email@gmail.com");
                     ("age", VNum 25)])
              false None).
Proof. reflexivity. Qed.

Example test_arrays :
  outcome (run_mapAndValidate Samples.users Samples.users_mapping Samples.users_schema)
  = Return (mkMapResult
              (VObj [("firstUserName", VStr "Bob"); ("secondUserAge", VNum 28);
                     ("thirdUserName", VStr "NoName")])
              false None).
Proof. reflexivity. Qed.

Example test_validation_fails :
  outcome (run_mapAndValidate Samples.bad_age Samples.bad_age_mapping Samples.bad_age_schema)
  = Return (mkMapResult VUndefined true (Some [Zod.invalid_type "number" ["age"]])).
Proof. reflexivity. Qed.

Example test_transform :
  outcome (run_mapAndValidate Samples.alice Samples.upper_mapping Samples.name_schema)
  = Return (mkMapResult (VObj [("name", VStr "ALICE")]) false None).
Proof. reflexivity. Qed.

(** The order of the keys of the mapping is the order of the keys of the
    object the validator is given. *)
Example strict_ab :
  outcome (run_mapAndValidate (VObj []) Samples.ab_mapping Zod.strictObject_empty)
  = Return (mkMapResult VUndefined true (Some [Zod.unrecognized_keys ["a"; "b"]])).
Proof. reflexivity. Qed.

Example strict_ba :
  outcome (run_mapAndValidate (VObj []) Samples.ba_mapping Zod.strictObject_empty)
  = Return (mkMapResult VUndefined true (Some [Zod.unrecognized_keys ["b"; "a"]])).
Proof. reflexivity. Qed.

(** Under the own key [__proto__] nothing is stored. *)
Example proto_run :
  run_mapAndValidate Samples.alice Samples.proto_mapping Zod.strictObject_empty
  = mkRun [CallSafeParse []] (Return (mkMapResult (VObj []) false None)).
Proof. reflexivity. Qed.

(** A transform that throws stops the call before the validator. *)
Example throwing_run :
  run_mapAndValidate Samples.alice Samples.throwing_mapping Samples.alice_schema
  = mkRun [CallTransform "name" (VStr "Alice"); CallTransform "age" (VNum 25)]
          (Throw (VStr "TypeError: v.toUpperCase is not a function")).
Proof. reflexivity. Qed.

(** ** Facts about objects *)

Lemma prop_get_set_same {A : Type} (o : JsObject A) (k : string) (v : A) :
  prop_get (prop_set o k v) k = Some v.
Proof.
  induction o as [|[k' v'] o IH]; simpl.
  - now rewrite String.eqb_refl.
  - destruct (String.eqb k k') eqn:E; simpl.
    + now rewrite String.eqb_refl.
    + now rewrite E.
Qed.

Lemma prop_get_set_other {A : Type} (o : JsObject A) (k k' : string) (v : A) :
  k <> k' -> prop_get (prop_set o k v) k' = prop_get o k'.
Proof.
  intros Hne.
  assert (Hkk : String.eqb k' k = false) by (apply String.eqb_neq; congruence).
  induction o as [|[k0 v0] o IH]; simpl.
  - now rewrite Hkk.
  - destruct (String.eqb k k0) eqn:E; simpl.
    + apply String.eqb_eq in E. subst k0. now rewrite Hkk.
    + now rewrite IH.
Qed.

Lemma prop_get_Some_In {A : Type} (o : JsObject A) (k : string) (v : A) :
  prop_get o k = Some v -> In (k, v) o.
Proof.
  induction o as [|[k' v'] o IH]; simpl; [discriminate|].
  destruct (String.eqb k k') eqn:E.
  - apply String.eqb_eq in E. intros [= ->]. subst. now left.
  - intros H. right. now apply IH.
Qed.

Lemma prop_get_In {A : Type} (o : JsObject A) (k : string) (v : A) :
  wf_object o -> In (k, v) o -> prop_get o k = Some v.
Proof.
  unfold wf_object.
  induction o as [|[k' v'] o IH]; simpl; [tauto|].
  intros Hnd [Heq | Hin]; inversion Hnd as [|? ? Hnotin Hnd']; subst.
  - injection Heq as -> ->. now rewrite String.eqb_refl.
  - destruct (String.eqb k k') eqn:E.
    + apply String.eqb_eq in E. subst k'. exfalso. apply Hnotin.
      change k with (fst (k, v)). now apply in_map.
    + now apply IH.
Qed.

Lemma prop_get_assign_same {A : Type} (o : JsObject A) (k : string) (v : A) :
  k <> "__proto__" -> prop_get (assign o k v) k = Some v.
Proof.
  intros Hk. unfold assign.
  apply String.eqb_neq in Hk. rewrite Hk. apply prop_get_set_same.
Qed.

Lemma prop_get_assign_other {A : Type} (o : JsObject A) (k k' : string) (v : A) :
  k <> k' -> prop_get (assign o k v) k' = prop_get o k'.
Proof.
  intros Hne. unfold assign.
  destruct (String.eqb k "__proto__"); [reflexivity|].
  now apply prop_get_set_other.
Qed.

Lemma prop_get_not_In {A : Type} (o : JsObject A) (k : string) :
  ~ In k (own_keys o) -> prop_get o k = None.
Proof.
  intros Hnotin. destruct (prop_get o k) as [v|] eqn:E; [|reflexivity].
  exfalso. apply Hnotin. apply prop_get_Some_In in E.
  change k with (fst (k, v)). now apply in_map.
Qed.

Lemma prop_set_fresh {A : Type} (o : JsObject A) (k : string) (v : A) :
  ~ In k (own_keys o) -> prop_set o k v = (o ++ [(k, v)])%list.
Proof.
  induction o as [|[k' v'] o IH]; simpl; [reflexivity|].
  intros Hnotin. destruct (String.eqb k k') eqn:E.
  - apply String.eqb_eq in E. subst. tauto.
  - rewrite IH; tauto.
Qed.

Lemma wf_object_Permutation {A : Type} (o o' : JsObject A) :
  Permutation o o' -> wf_object o -> wf_object o'.
Proof.
  unfold wf_object, own_keys. intros Hp.
  apply Permutation_NoDup. now apply Permutation_map.
Qed.

Lemma prop_get_Permutation {A : Type} (o o' : JsObject A) (k : string) :
  wf_object o -> Permutation o o' -> prop_get o k = prop_get o' k.
Proof.
  intros Hwf Hp.
  assert (Hwf' : wf_object o') by (eapply wf_object_Permutation; eauto).
  destruct (prop_get o k) as [v|] eqn:E.
  - symmetry. apply prop_get_In; [assumption|].
    eapply Permutation_in; [eassumption|]. now apply prop_get_Some_In.
  - destruct (prop_get o' k) as [v'|] eqn:E'; [|reflexivity].
    apply prop_get_Some_In in E'.
    apply Permutation_sym in Hp.
    apply (Permutation_in _ Hp) in E'.
    apply prop_get_In in E'; [congruence | assumption].
Qed.

Lemma own_keys_delete {A : Type} (o : JsObject A) (k : string) :
  own_keys (prop_delete o k) = filter (fun k' => negb (String.eqb k k')) (own_keys o).
Proof.
  induction o as [|[k' v'] o IH]; simpl; [reflexivity|].
  destruct (String.eqb k k'); simpl; now rewrite IH.
Qed.

Lemma prop_get_delete_other {A : Type} (o : JsObject A) (k k' : string) :
  k <> k' -> prop_get (prop_delete o k) k' = prop_get o k'.
Proof.
  intros Hne.
  induction o as [|[k0 v0] o IH]; simpl; [reflexivity|].
  destruct (String.eqb k k0) eqn:E; simpl.
  - apply String.eqb_eq in E. subst k0.
    replace (String.eqb k' k) with false
      by (symmetry; apply String.eqb_neq; congruence).
    assumption.
  - now rewrite IH.
Qed.

(** ** Facts about runs *)

Lemma outcome_bind_Return {A B : Type} (m : Run A) (f : A -> Run B) (b : B) :
  outcome (x <- m ;; f x) = Return b ->
  exists a, outcome m = Return a /\ outcome (f a) = Return b.
Proof.
  unfold bind. destruct (outcome m) as [a|x]; simpl; [|discriminate].
  intros H. now exists a.
Qed.

Lemma outcome_bind_Throw {A B : Type} (m : Run A) (f : A -> Run B) (x : Value) :
  outcome (y <- m ;; f y) = Throw x ->
  outcome m = Throw x \/ exists a, outcome m = Return a /\ outcome (f a) = Throw x.
Proof.
  unfold bind. destruct (outcome m) as [a|y]; simpl.
  - intros H. right. now exists a.
  - intros [= ->]. now left.
Qed.

Lemma bind_Return {A B : Type} (m : Run A) (f : A -> Run B) (a : A) :
  outcome m = Return a ->
  (x <- m ;; f x) = mkRun (calls m ++ calls (f a)) (outcome (f a)).
Proof. unfold bind. now intros ->. Qed.

Lemma bind_Throw {A B : Type} (m : Run A) (f : A -> Run B) (x : Value) :
  outcome m = Throw x -> (y <- m ;; f y) = mkRun (calls m) (Throw x).
Proof. unfold bind. now intros ->. Qed.

(** ** The loop *)

Section Loop.

Variable baseGet : Value -> string -> Value.
Variable obj : Value.

Lemma field_value_outcome (key : string) (e : PathMapping) :
  outcome (field_value baseGet obj key e)
  = match transform e with
    | Some t => t (get baseGet obj (path e) (defaultVal e))
    | None => Return (get baseGet obj (path e) (defaultVal e))
    end.
Proof. unfold field_value. now destruct (transform e). Qed.

Lemma field_value_calls (key : string) (e : PathMapping) :
  calls (field_value baseGet obj key e)
  = match transform e with
    | Some _ => [CallTransform key (get baseGet obj (path e) (defaultVal e))]
    | None => []
    end.
Proof. unfold field_value. now destruct (transform e). Qed.

Variable mapping : Mappings.

(** A key that is not visited, or holds no entry, is never assigned. *)
Lemma extract_untouched (keys : list string) :
  forall (result c : JsObject Value) (k : string),
    ~ In k keys \/ entry_of mapping k = None ->
    outcome (extract baseGet obj mapping keys result) = Return c ->
    prop_get c k = prop_get result k.
Proof.
  induction keys as [|key rest IH]; simpl; intros result c k Hk Hout.
  - now injection Hout as <-.
  - assert (Hrest : ~ In k rest \/ entry_of mapping k = None) by tauto.
    destruct (entry_of mapping key) as [e|] eqn:He.
    + apply outcome_bind_Return in Hout as (v & _ & Hout).
      rewrite (IH _ _ _ Hrest Hout).
      apply prop_get_assign_other.
      intros ->. destruct Hk as [Hk | Hk]; [tauto | congruence].
    + eauto.
Qed.

(** A visited key that holds an entry is assigned what its body computes. *)
Lemma extract_field (keys : list string) :
  forall (result c : JsObject Value) (key : string) (e : PathMapping),
    NoDup keys -> In key keys -> entry_of mapping key = Some e ->
    key <> "__proto__" ->
    outcome (extract baseGet obj mapping keys result) = Return c ->
    exists v, outcome (field_value baseGet obj key e) = Return v
              /\ prop_get c key = Some v.
Proof.
  induction keys as [|key0 rest IH]; simpl;
    intros result c key e Hnd Hin He Hkey Hout; [tauto|].
  inversion Hnd as [|? ? Hnotin Hnd']; subst.
  destruct Hin as [-> | Hin].
  - rewrite He in Hout.
    apply outcome_bind_Return in Hout as (v & Hv & Hout).
    exists v. split; [assumption|].
    rewrite (extract_untouched rest _ _ key (or_introl Hnotin) Hout).
    now apply prop_get_assign_same.
  - destruct (entry_of mapping key0) as [e0|].
    + apply outcome_bind_Return in Hout as (v & _ & Hout). eauto.
    + eauto.
Qed.

(** The only calls the loop makes are transforms, each on the value read
    for its own entry. *)
Lemma extract_calls (keys : list string) :
  forall (result : JsObject Value) (ev : Event),
    In ev (calls (extract baseGet obj mapping keys result)) ->
    exists key e t,
      ev = CallTransform key (get baseGet obj (path e) (defaultVal e)) /\ In key keys
      /\ entry_of mapping key = Some e /\ transform e = Some t.
Proof.
  induction keys as [|key rest IH]; simpl; intros result ev Hin; [tauto|].
  destruct (entry_of mapping key) as [e|] eqn:He.
  - unfold bind in Hin.
    assert (Hhead : In ev (calls (field_value baseGet obj key e)) ->
                    exists key0 e0 t,
                      ev = CallTransform key0 (get baseGet obj (path e0) (defaultVal e0))
                      /\ In key0 (key :: rest)
                      /\ entry_of mapping key0 = Some e0 /\ transform e0 = Some t).
    { rewrite field_value_calls. destruct (transform e) as [t|] eqn:Ht; simpl; [|tauto].
      intros [<- | []]. exists key, e, t. simpl. tauto. }
    destruct (outcome (field_value baseGet obj key e)) as [v|x]; simpl in Hin.
    + apply in_app_or in Hin as [Hin | Hin]; [now apply Hhead|].
      apply IH in Hin as (key0 & e0 & t & H1 & H2 & H3).
      exists key0, e0, t. simpl. tauto.
    + now apply Hhead.
  - apply IH in Hin as (key0 & e0 & t & H1 & H2 & H3).
    exists key0, e0, t. simpl. tauto.
Qed.

(** An exception leaves the loop only out of a transform. *)
Lemma extract_Throw (keys : list string) :
  forall (result : JsObject Value) (x : Value),
    outcome (extract baseGet obj mapping keys result) = Throw x ->
    exists key e t,
      In key keys /\ entry_of mapping key = Some e /\ transform e = Some t
      /\ t (get baseGet obj (path e) (defaultVal e)) = Throw x.
Proof.
  induction keys as [|key rest IH]; simpl; intros result x Hout; [discriminate|].
  destruct (entry_of mapping key) as [e|] eqn:He.
  - apply outcome_bind_Throw in Hout as [Hout | (v & _ & Hout)].
    + rewrite field_value_outcome in Hout.
      destruct (transform e) as [t|] eqn:Ht; [|discriminate].
      exists key, e, t. tauto.
    + apply IH in Hout as (key0 & e0 & t & H1 & H2). exists key0, e0, t. tauto.
  - apply IH in Hout as (key0 & e0 & t & H1 & H2). exists key0, e0, t. tauto.
Qed.

Lemma extract_returns (keys : list string) (result : JsObject Value) :
  transforms_return baseGet obj mapping ->
  exists c, outcome (extract baseGet obj mapping keys result) = Return c.
Proof.
  intros Htot.
  destruct (outcome (extract baseGet obj mapping keys result)) as [c|x] eqn:Hout; [now exists c|].
  apply extract_Throw in Hout as (key & e & t & _ & He & Ht & Hx).
  destruct (Htot key e t He Ht) as [v Hv]. congruence.
Qed.

(** A transform that was called and threw ends the loop with what it threw. *)
Lemma extract_thrown (keys : list string) :
  forall (result : JsObject Value) (key : string) (arg x : Value)
         (e : PathMapping) (t : Value -> Exc Value),
    In (CallTransform key arg) (calls (extract baseGet obj mapping keys result)) ->
    entry_of mapping key = Some e -> transform e = Some t -> t arg = Throw x ->
    outcome (extract baseGet obj mapping keys result) = Throw x.
Proof.
  induction keys as [|key0 rest IH]; simpl; intros result key arg x e t Hin He Ht Hx;
    [tauto|].
  destruct (entry_of mapping key0) as [e0|] eqn:He0; [|eauto].
  unfold bind in *. unfold field_value in *.
  destruct (transform e0) as [t0|] eqn:Ht0; simpl in *.
  - destruct (t0 (get baseGet obj (path e0) (defaultVal e0))) as [v|y] eqn:Hcall; simpl in *.
    + destruct Hin as [Heq | Hin]; [|eauto].
      injection Heq as <- <-. congruence.
    + destruct Hin as [Heq | []].
      injection Heq as <- <-. congruence.
  - eauto.
Qed.

(** Visiting fresh keys appends one property per entry object, except
    under [__proto__]. *)
Lemma extract_keys (keys : list string) :
  forall (result c : JsObject Value),
    NoDup keys -> (forall k, In k keys -> ~ In k (own_keys result)) ->
    outcome (extract baseGet obj mapping keys result) = Return c ->
    own_keys c = (own_keys result ++ filter (is_stored mapping) keys)%list.
Proof.
  induction keys as [|key rest IH]; simpl; intros result c Hnd Hfresh Hout.
  - injection Hout as <-. now rewrite app_nil_r.
  - inversion Hnd as [|? ? Hnotin Hnd']; subst.
    unfold is_stored at 1, has_entry at 1.
    destruct (entry_of mapping key) as [e|] eqn:He; [|apply IH; auto].
    apply outcome_bind_Return in Hout as (v & _ & Hout).
    unfold assign in Hout.
    destruct (String.eqb key "__proto__"); simpl; [apply IH; auto|].
    rewrite prop_set_fresh in Hout by auto.
    apply IH in Hout; [|assumption|].
    + rewrite Hout. unfold own_keys. rewrite map_app, <- app_assoc. reflexivity.
    + intros k Hk. unfold own_keys. rewrite map_app, in_app_iff. simpl.
      intros [H | [<- | []]]; [|tauto]. now apply (Hfresh k); [right|].
Qed.

End Loop.

(** ** The whole call *)

Section Call.

Variable Issue : Type.
Variable baseGet : Value -> string -> Value.
Variable obj : Value.
Variable mapping : Mappings.





Lemma entry_of_In (key : string) (e : PathMapping) :
  entry_of mapping key = Some e -> In key (own_keys mapping).
Proof.
  unfold entry_of. destruct (prop_get mapping key) as [slot|] eqn:E; [|discriminate].
  intros _. apply prop_get_Some_In in E.
  change key with (fst (key, slot)). now apply in_map.
Qed.

(** The field stored for an entry object. *)
Lemma candidate_field (key : string) (e : PathMapping) (c : JsObject Value) :
  wf_object mapping -> entry_of mapping key = Some e -> key <> "__proto__" ->
  outcome (candidate baseGet obj mapping) = Return c ->
  match transform e with
  | Some t => exists v', t (get baseGet obj (path e) (defaultVal e)) = Return v'
                         /\ prop_get c key = Some v'
  | None => prop_get c key = Some (get baseGet obj (path e) (defaultVal e))
  end.
Proof.
  intros Hwf He Hkey Hout.
  destruct (extract_field baseGet obj mapping _ _ _ key e Hwf (entry_of_In _ _ He) He
              Hkey Hout) as (v & Hv & Hc).
  rewrite field_value_outcome in Hv.
  destruct (transform e) as [t|]; [eauto | congruence].
Qed.


Variable schema : ZodType Issue.

Lemma mapAndValidate_Return (c : JsObject Value) :
  outcome (candidate baseGet obj mapping) = Return c ->
  mapAndValidate baseGet obj mapping schema
  = mkRun (calls (candidate baseGet obj mapping) ++ [CallSafeParse c])
          (Return (to_result (safeParse schema c))).
Proof. intros H. unfold mapAndValidate. now rewrite (bind_Return _ _ c H). Qed.

Lemma mapAndValidate_Throw (x : Value) :
  outcome (candidate baseGet obj mapping) = Throw x ->
  mapAndValidate baseGet obj mapping schema
  = mkRun (calls (candidate baseGet obj mapping)) (Throw x).
Proof. intros H. unfold mapAndValidate. now rewrite (bind_Throw _ _ x H). Qed.

Lemma candidate_never_validates (c : JsObject Value) :
  ~ In (CallSafeParse c) (calls (candidate baseGet obj mapping)).
Proof.
  intros Hin. apply extract_calls in Hin as (key & e & t & Heq & _). discriminate.
Qed.



(** C4, as amended. A call that returns gives back exactly one of two
    objects, according to what the validator did with the candidate
    object: on acceptance the success object, whose [data] is the
    validator's output (be it [undefined]) and whose [errors] is
    [undefined]; on rejection the failure object, whose [data] is
    [undefined] and whose [errors] is the validator's list of issues.
    The success object is no failure object and the failure object no
    success object. *)
Theorem result_is_one_variant (r : MapResult Issue) :
  outcome (mapAndValidate baseGet obj mapping schema) = Return r ->
  exists c,
    outcome (candidate baseGet obj mapping) = Return c
    /\ match safeParse schema c with
       | ParseSuccess d =>
           is_success r d /\ forall issues, ~ is_failure r issues
       | ParseFailure issues =>
           is_failure r issues /\ forall d, ~ is_success r d
       end.
Proof.
  intros Hr.
  destruct (outcome (candidate baseGet obj mapping)) as [c|x] eqn:Hout.
  - exists c. split; [reflexivity|].
    rewrite (mapAndValidate_Return c Hout) in Hr. simpl in Hr. injection Hr as <-.
    unfold is_success, is_failure.
    destruct (safeParse schema c) as [d|issues]; simpl.
    + split; [tauto|]. intros issues (H & _). discriminate.
    + split; [tauto|]. intros d (H & _). discriminate.
  - rewrite (mapAndValidate_Throw x Hout) in Hr. discriminate.
Qed.

(** C5. When the validator rejects the candidate object, the result
    carries the validator's list of issues as it is. *)
Theorem issues_pass_through (c : JsObject Value) (issues : list Issue) :
  outcome (candidate baseGet obj mapping) = Return c ->
  safeParse schema c = ParseFailure issues ->
  outcome (mapAndValidate baseGet obj mapping schema)
  = Return (mkMapResult VUndefined true (Some issues)).
Proof.
  intros Hout Hparse. rewrite (mapAndValidate_Return c Hout). simpl.
  now rewrite Hparse.
Qed.

(** C7. A transform that throws when it is applied ends the call with
    the value it threw; the validator is not called and no result is
    returned. *)
Theorem transform_fault_propagates
        (key : string) (e : PathMapping) (t : Value -> Exc Value) (arg x : Value) :
  In (CallTransform key arg) (calls (mapAndValidate baseGet obj mapping schema)) ->
  entry_of mapping key = Some e -> transform e = Some t -> t arg = Throw x ->
  outcome (mapAndValidate baseGet obj mapping schema) = Throw x
  /\ (forall c, ~ In (CallSafeParse c) (calls (mapAndValidate baseGet obj mapping schema)))
  /\ (forall r, outcome (mapAndValidate baseGet obj mapping schema) <> Return r).
Proof.
  intros Hin He Ht Hx.
  assert (Hcand : In (CallTransform key arg) (calls (candidate baseGet obj mapping))).
  { destruct (outcome (candidate baseGet obj mapping)) as [c|y] eqn:Hout.
    - rewrite (mapAndValidate_Return c Hout) in Hin. simpl in Hin.
      apply in_app_or in Hin as [Hin | [Heq | []]]; [assumption | discriminate].
    - now rewrite (mapAndValidate_Throw y Hout) in Hin. }
  pose proof (extract_thrown baseGet obj mapping _ _ key arg x e t Hcand He Ht Hx) as Hout.
  rewrite (mapAndValidate_Throw x Hout). simpl.
  split; [reflexivity|]. split.
  - apply candidate_never_validates.
  - discriminate.
Qed.

End Call.

(** C8. With an empty mapping the candidate object is empty, the
    validator is called once on it, and the result is the tagged outcome
    of that validation. *)
Theorem empty_mapping_validates_empty_object
        (Issue : Type) (baseGet : Value -> string -> Value) (obj : Value)
        (schema : ZodType Issue) :
  candidate baseGet obj [] = ret []
  /\ mapAndValidate baseGet obj [] schema
     = mkRun [CallSafeParse []] (Return (to_result (safeParse schema []))).
Proof. split; reflexivity. Qed.

(** ** Keys without an entry, and the order of the keys *)

Section Mappings.

Variable baseGet : Value -> string -> Value.
Variable obj : Value.

(** The loop reads the mapping only through [entry_of]. *)
Lemma extract_ext (m1 m2 : Mappings) (keys : list string) :
  forall result : JsObject Value,
    (forall k, In k keys -> entry_of m1 k = entry_of m2 k) ->
    extract baseGet obj m1 keys result = extract baseGet obj m2 keys result.
Proof.
  induction keys as [|key rest IH]; simpl; intros result Hext; [reflexivity|].
  rewrite <- (Hext key) by now left.
  destruct (entry_of m1 key) as [e|].
  - unfold bind.
    destruct (outcome (field_value baseGet obj key e)); [|reflexivity].
    rewrite IH; auto.
  - apply IH. auto.
Qed.

(** Visiting a key that holds no entry does nothing. *)
Lemma extract_skip (m : Mappings) (key : string) (keys : list string) :
  forall result : JsObject Value,
    entry_of m key = None ->
    extract baseGet obj m keys result
    = extract baseGet obj m (filter (fun k => negb (String.eqb key k)) keys) result.
Proof.
  induction keys as [|key0 rest IH]; simpl; intros result Hnone; [reflexivity|].
  destruct (String.eqb key key0) eqn:E; simpl.
  - apply String.eqb_eq in E. subst key0. rewrite Hnone. now apply IH.
  - destruct (entry_of m key0) as [e|]; [|now apply IH].
    unfold bind.
    destruct (outcome (field_value baseGet obj key0 e)); [|reflexivity].
    now rewrite IH.
Qed.

Lemma entry_of_delete_other (m : Mappings) (key k : string) :
  key <> k -> entry_of (prop_delete m key) k = entry_of m k.
Proof. intros Hne. unfold entry_of. now rewrite prop_get_delete_other. Qed.

Lemma candidate_delete (m : Mappings) (key : string) :
  entry_of m key = None ->
  candidate baseGet obj m = candidate baseGet obj (prop_delete m key).
Proof.
  intros Hnone. unfold candidate.
  rewrite own_keys_delete, (extract_skip m key _ _ Hnone).
  apply extract_ext. intros k Hk.
  apply filter_In in Hk as [_ Hk].
  symmetry. apply entry_of_delete_other.
  intros ->. now rewrite String.eqb_refl in Hk.
Qed.

Lemma has_entry_keys (m : Mappings) :
  wf_object m -> filter (has_entry m) (own_keys m) = entry_keys m.
Proof.
  unfold wf_object, entry_keys.
  induction m as [|[k slot] m IH]; simpl; intros Hnd; [reflexivity|].
  inversion Hnd as [|? ? Hnotin Hnd']; subst.
  assert (Htail : filter (has_entry ((k, slot) :: m)) (own_keys m)
                  = filter (has_entry m) (own_keys m)).
  { apply filter_ext_in. intros k' Hk'. unfold has_entry, entry_of. simpl.
    destruct (String.eqb k' k) eqn:E; [|reflexivity].
    apply String.eqb_eq in E. now subst. }
  unfold has_entry at 1, entry_of. simpl. rewrite String.eqb_refl, Htail, IH by assumption.
  now destruct slot.
Qed.

Lemma is_stored_keys (m : Mappings) :
  wf_object m -> filter (is_stored m) (own_keys m) = stored_keys m.
Proof.
  intros Hwf. unfold stored_keys. rewrite <- (has_entry_keys m Hwf).
  unfold is_stored.
  induction (own_keys m) as [|k l IH]; simpl; [reflexivity|].
  destruct (has_entry m k); simpl; [|assumption].
  destruct (String.eqb k "__proto__"); simpl; now rewrite IH.
Qed.

Lemma stored_keys_entry (m : Mappings) (k : string) :
  wf_object m -> In k (stored_keys m) ->
  k <> "__proto__" /\ In k (own_keys m) /\ has_entry m k = true.
Proof.
  intros Hwf Hin. unfold stored_keys in Hin.
  apply filter_In in Hin as [Hin Hk].
  rewrite <- (has_entry_keys m Hwf) in Hin.
  apply filter_In in Hin as [Hin He].
  split; [|split; assumption].
  apply String.eqb_neq.
  destruct (String.eqb k "__proto__"); [discriminate | reflexivity].
Qed.

(** The keys of the candidate object are the keys that hold an entry,
    [__proto__] left out. *)
Lemma candidate_keys (m : Mappings) (c : JsObject Value) :
  wf_object m -> outcome (candidate baseGet obj m) = Return c ->
  own_keys c = stored_keys m.
Proof.
  intros Hwf Hout.
  apply extract_keys in Hout; [|assumption|simpl; tauto].
  now rewrite Hout, is_stored_keys.
Qed.

Lemma candidate_wf (m : Mappings) (c : JsObject Value) :
  wf_object m -> outcome (candidate baseGet obj m) = Return c -> wf_object c.
Proof.
  intros Hwf Hout. unfold wf_object.
  rewrite (candidate_keys m c Hwf Hout), <- is_stored_keys by assumption.
  now apply NoDup_filter.
Qed.

(** Two mappings with the same entries under the same keys build objects
    with the same properties. *)
Lemma candidates_agree (m1 m2 : Mappings) (c1 c2 : JsObject Value) :
  wf_object m1 -> wf_object m2 -> (forall k, entry_of m1 k = entry_of m2 k) ->
  outcome (candidate baseGet obj m1) = Return c1 ->
  outcome (candidate baseGet obj m2) = Return c2 ->
  forall k v, In (k, v) c1 -> In (k, v) c2.
Proof.
  intros Hwf1 Hwf2 Hsame Hout1 Hout2 k v Hin.
  assert (Hk : In k (own_keys c1)) by (change k with (fst (k, v)); now apply in_map).
  assert (Hget : prop_get c1 k = Some v).
  { apply prop_get_In; [|assumption]. now apply (candidate_wf m1). }
  rewrite (candidate_keys m1 c1 Hwf1 Hout1) in Hk.
  apply (stored_keys_entry m1 k Hwf1) in Hk as (Hproto & _ & Hk).
  unfold has_entry in Hk.
  destruct (entry_of m1 k) as [e|] eqn:He; [|discriminate].
  pose proof (candidate_field baseGet obj m1 k e c1 Hwf1 He Hproto Hout1) as H1.
  rewrite Hsame in He.
  pose proof (candidate_field baseGet obj m2 k e c2 Hwf2 He Hproto Hout2) as H2.
  apply prop_get_Some_In.
  destruct (transform e) as [t|].
  - destruct H1 as (v1 & Ht1 & Hc1), H2 as (v2 & Ht2 & Hc2). congruence.
  - congruence.
Qed.

Lemma wf_object_NoDup {A : Type} (o : JsObject A) : wf_object o -> NoDup o.
Proof. apply NoDup_map_inv. Qed.

Lemma candidates_Permutation (m1 m2 : Mappings) (c1 c2 : JsObject Value) :
  wf_object m1 -> Permutation m1 m2 ->
  outcome (candidate baseGet obj m1) = Return c1 ->
  outcome (candidate baseGet obj m2) = Return c2 ->
  Permutation c1 c2.
Proof.
  intros Hwf1 Hp Hout1 Hout2.
  assert (Hwf2 : wf_object m2) by (eapply wf_object_Permutation; eauto).
  assert (Hsame : forall k, entry_of m1 k = entry_of m2 k).
  { intros k. unfold entry_of. now rewrite (prop_get_Permutation m1 m2 k Hwf1 Hp). }
  apply NoDup_Permutation.
  - apply wf_object_NoDup. now apply (candidate_wf m1).
  - apply wf_object_NoDup. now apply (candidate_wf m2).
  - intros [k v]. split.
    + now apply (candidates_agree m1 m2 c1 c2).
    + now apply (candidates_agree m2 m1 c2 c1).
Qed.

Lemma field_value_same (key : string) (e1 e2 : PathMapping) :
  same_entry e1 e2 -> field_value baseGet obj key e1 = field_value baseGet obj key e2.
Proof.
  intros (Hpath & Hdef & Ht). unfold field_value, defaultVal.
  rewrite Hpath, Hdef.
  destruct (transform e1) as [t1|], (transform e2) as [t2|]; simpl in Ht;
    try contradiction; [|reflexivity].
  unfold call_transform. now rewrite Ht.
Qed.

Lemma same_mapping_keys (m1 m2 : Mappings) :
  same_mapping m1 m2 -> own_keys m1 = own_keys m2.
Proof.
  induction 1 as [|[k1 s1] [k2 s2] m1 m2 [Hk _] _ IH]; simpl; [reflexivity|].
  simpl in Hk. now rewrite Hk, IH.
Qed.

Lemma same_mapping_entry (m1 m2 : Mappings) (k : string) :
  same_mapping m1 m2 ->
  match entry_of m1 k, entry_of m2 k with
  | Some e1, Some e2 => same_entry e1 e2
  | None, None => True
  | _, _ => False
  end.
Proof.
  unfold entry_of.
  induction 1 as [|[k1 s1] [k2 s2] m1 m2 [Hk Hs] _ IH]; simpl; [exact I|].
  simpl in Hk, Hs. subst k2.
  destruct (String.eqb k k1); [|exact IH].
  destruct s1, s2; assumption.
Qed.

Lemma extract_same (m1 m2 : Mappings) (keys : list string) :
  forall result : JsObject Value,
    same_mapping m1 m2 ->
    extract baseGet obj m1 keys result = extract baseGet obj m2 keys result.
Proof.
  induction keys as [|key rest IH]; simpl; intros result Hsame; [reflexivity|].
  pose proof (same_mapping_entry m1 m2 key Hsame) as He.
  destruct (entry_of m1 key) as [e1|], (entry_of m2 key) as [e2|];
    try contradiction; [|now apply IH].
  rewrite (field_value_same key e1 e2 He). unfold bind.
  destruct (outcome (field_value baseGet obj key e2)); [|reflexivity].
  now rewrite IH.
Qed.

End Mappings.

(** ** Properties of the mapping as a whole *)


(** C3. A key of the mapping that holds no entry object is skipped: the
    candidate object has no property under it, and the call runs exactly
    as it does on the mapping without that key. *)
Theorem falsy_entry_is_skipped
        (Issue : Type) (baseGet : Value -> string -> Value) (obj : Value)
        (mapping : Mappings) (schema : ZodType Issue) (key : string) :
  prop_get mapping key = Some None ->
  (forall c, outcome (candidate baseGet obj mapping) = Return c -> prop_get c key = None)
  /\ mapAndValidate baseGet obj mapping schema
     = mapAndValidate baseGet obj (prop_delete mapping key) schema.
Proof.
  intros Hslot.
  assert (Hnone : entry_of mapping key = None) by (unfold entry_of; now rewrite Hslot).
  split.
  - intros c Hout.
    now rewrite (extract_untouched baseGet obj mapping _ _ _ key (or_intror Hnone) Hout).
  - unfold mapAndValidate. now rewrite (candidate_delete baseGet obj mapping key Hnone).
Qed.

(** C6, as amended. With transforms that return and a validator that
    does not depend on the order of the keys of the object it is given,
    two mappings with the same properties in different orders give the
    same result. *)
Theorem field_independence
        (Issue : Type) (baseGet : Value -> string -> Value) (obj : Value)
        (m1 m2 : Mappings) (schema : ZodType Issue) :
  wf_object m1 -> Permutation m1 m2 ->
  transforms_return baseGet obj m1 ->
  order_insensitive schema ->
  outcome (mapAndValidate baseGet obj m1 schema)
  = outcome (mapAndValidate baseGet obj m2 schema).
Proof.
  intros Hwf Hp Htot Hschema.
  assert (Htot2 : transforms_return baseGet obj m2).
  { intros key e t He Ht. apply (Htot key e t); [|assumption].
    unfold entry_of in *.
    now rewrite (prop_get_Permutation m1 m2 key Hwf Hp). }
  destruct (extract_returns baseGet obj m1 (own_keys m1) [] Htot) as [c1 H1].
  destruct (extract_returns baseGet obj m2 (own_keys m2) [] Htot2) as [c2 H2].
  rewrite (mapAndValidate_Return Issue baseGet obj m1 schema c1 H1).
  rewrite (mapAndValidate_Return Issue baseGet obj m2 schema c2 H2).
  simpl. do 2 f_equal.
  apply Hschema.
  - now apply (candidate_wf baseGet obj m1).
  - now apply (candidates_Permutation baseGet obj m1 m2).
Qed.

(** ** Calls in a heap *)

Lemma length_store (h : Heap) (a : nat) (o : JsObject Value) :
  length (store h a o) = length h.
Proof.
  revert a. induction h as [|o' h IH]; intros [|a]; simpl; auto.
Qed.

Lemma load_store (h : Heap) (a : nat) (o : JsObject Value) :
  a < length h -> load (store h a o) a = o.
Proof.
  unfold load. revert a.
  induction h as [|o' h IH]; intros [|a]; simpl; intros Ha; try lia; [reflexivity|].
  apply IH. lia.
Qed.

Lemma store_store (h : Heap) (a : nat) (o o' : JsObject Value) :
  store (store h a o) a o' = store h a o'.
Proof.
  revert a. induction h as [|o0 h IH]; intros [|a]; simpl; try reflexivity.
  now rewrite IH.
Qed.

Lemma store_load (h : Heap) (a : nat) : store h a (load h a) = h.
Proof.
  unfold load. revert a.
  induction h as [|o h IH]; intros [|a]; simpl; try reflexivity.
  now rewrite IH.
Qed.

Lemma load_alloc (h : Heap) : load (snd (alloc h)) (fst (alloc h)) = [].
Proof.
  unfold load, alloc. simpl.
  induction h as [|o h IH]; simpl; [reflexivity | assumption].
Qed.

Lemma store_alloc (h : Heap) (o : JsObject Value) :
  store (snd (alloc h)) (fst (alloc h)) o = (h ++ [o])%list.
Proof.
  unfold alloc. simpl.
  induction h as [|o' h IH]; simpl; [reflexivity | now rewrite IH].
Qed.

Section InHeap.

Variable Issue : Type.
Variable baseGet : Value -> string -> Value.
Variable obj : Value.

(** The loop on an address does to the object at that address what the
    loop on an object does, and touches nothing else. *)
Lemma extract_in_object (mapping : Mappings) (keys : list string) :
  forall (h : Heap) (a : nat),
    a < length h ->
    calls (extract_in baseGet obj mapping keys a h)
    = calls (extract baseGet obj mapping keys (load h a))
    /\ outcome (extract_in baseGet obj mapping keys a h)
       = match outcome (extract baseGet obj mapping keys (load h a)) with
         | Return c => Return (store h a c)
         | Throw x => Throw x
         end.
Proof.
  induction keys as [|key rest IH]; simpl; intros h a Ha.
  - now rewrite store_load.
  - destruct (entry_of mapping key) as [e|]; [|now apply IH].
    unfold bind.
    destruct (outcome (field_value baseGet obj key e)) as [v|x]; simpl;
      [|split; reflexivity].
    destruct (IH (store h a (assign (load h a) key v)) a) as [Hcalls Hout].
    { now rewrite length_store. }
    rewrite (load_store h a _ Ha) in Hcalls, Hout.
    rewrite Hcalls, Hout. split; [reflexivity|].
    destruct (outcome (extract baseGet obj mapping rest (assign (load h a) key v)));
      [|reflexivity].
    now rewrite store_store.
Qed.

(** A call started in any heap makes the calls and reaches the outcome
    computed from its arguments alone, and leaves the heap it found with
    one new object behind it. *)
Lemma mapAndValidate_in_heap (h : Heap) (mapping : Mappings) (schema : ZodType Issue) :
  calls (mapAndValidate_in baseGet h obj mapping schema)
  = calls (mapAndValidate baseGet obj mapping schema)
  /\ outcome (mapAndValidate_in baseGet h obj mapping schema)
     = match outcome (candidate baseGet obj mapping) with
       | Return c => Return (to_result (safeParse schema c), (h ++ [c])%list)
       | Throw x => Throw x
       end.
Proof.
  unfold mapAndValidate_in, mapAndValidate.
  pose proof (load_alloc h) as Hload. pose proof (store_alloc h) as Hstore.
  destruct (alloc h) as [a h0] eqn:Halloc. simpl in Hload, Hstore.
  assert (Ha : a < length h0).
  { unfold alloc in Halloc. injection Halloc as <- <-.
    rewrite length_app. simpl. lia. }
  destruct (extract_in_object mapping (own_keys mapping) h0 a Ha) as [Hcalls Hout].
  rewrite Hload in Hcalls, Hout. fold (candidate baseGet obj mapping) in Hcalls, Hout.
  destruct (outcome (candidate baseGet obj mapping)) as [c|x] eqn:Hc.
  - rewrite (bind_Return _ _ _ Hout), (bind_Return _ _ c Hc). simpl.
    rewrite Hcalls, (load_store h0 a c Ha), Hstore. split; reflexivity.
  - rewrite (bind_Throw _ _ x Hout), (bind_Throw _ _ x Hc). simpl.
    rewrite Hcalls. split; reflexivity.
Qed.

(** C9. A call started in any heap, that is after any earlier calls,
    makes the same calls and gives the same result as a call with the
    same source, the same keys, paths and defaults, and transforms and a
    validator that return the same on every argument; and it leaves every
    object it found in the heap as it was, adding only the object it
    built. *)
Theorem mapAndValidate_deterministic
        (m1 m2 : Mappings) (s1 s2 : ZodType Issue) (h1 h2 : Heap) :
  same_mapping m1 m2 -> same_schema s1 s2 ->
  calls (mapAndValidate_in baseGet h1 obj m1 s1)
  = calls (mapAndValidate_in baseGet h2 obj m2 s2)
  /\ match outcome (mapAndValidate_in baseGet h1 obj m1 s1),
           outcome (mapAndValidate_in baseGet h2 obj m2 s2) with
     | Return (r1, h1'), Return (r2, h2') =>
         r1 = r2 /\ exists c, h1' = (h1 ++ [c])%list /\ h2' = (h2 ++ [c])%list
     | Throw x1, Throw x2 => x1 = x2
     | _, _ => False
     end.
Proof.
  intros Hm Hs.
  destruct (mapAndValidate_in_heap h1 m1 s1) as [Hcalls1 Hout1].
  destruct (mapAndValidate_in_heap h2 m2 s2) as [Hcalls2 Hout2].
  assert (Hcand : candidate baseGet obj m1 = candidate baseGet obj m2).
  { unfold candidate.
    now rewrite (same_mapping_keys m1 m2 Hm), (extract_same baseGet obj m1 m2 _ _ Hm). }
  rewrite Hcalls1, Hcalls2, Hout1, Hout2.
  unfold mapAndValidate. rewrite Hcand. split.
  - unfold bind.
    destruct (outcome (candidate baseGet obj m2)) as [c|x]; reflexivity.
  - destruct (outcome (candidate baseGet obj m2)) as [c|x]; simpl; [|reflexivity].
    rewrite (Hs c). split; [reflexivity|]. now exists c.
Qed.

End InHeap.

(** ** The properties on the samples *)

Lemma check_shape_ext (shape : JsObject Zod.FieldType) (c c' : JsObject Value) :
  (forall k, prop_get c k = prop_get c' k) ->
  Zod.check_shape shape c = Zod.check_shape shape c'.
Proof.
  intros Hsame. induction shape as [|[k t] shape IH]; simpl; [reflexivity|].
  now rewrite IH, Hsame.
Qed.

Lemma object_order_insensitive (shape : JsObject Zod.FieldType) :
  order_insensitive (Zod.object shape).
Proof.
  intros c c' Hwf Hp. simpl.
  rewrite (check_shape_ext shape c c'); [reflexivity|].
  intros k. now apply prop_get_Permutation.
Qed.





Lemma result_is_one_variant_witness :
  exists c,
    outcome (candidate Lodash.baseGet Samples.bad_age Samples.bad_age_mapping) = Return c
    /\ is_failure (mkMapResult VUndefined true (Some [Zod.invalid_type "number" ["age"]]))
                  [Zod.invalid_type "number" ["age"]].
Proof.
  destruct (result_is_one_variant Zod.Issue Lodash.baseGet Samples.bad_age
              Samples.bad_age_mapping Samples.bad_age_schema
              (mkMapResult VUndefined true (Some [Zod.invalid_type "number" ["age"]]))
              eq_refl) as (c & Hc & Hshape).
  exists c. split; [assumption|].
  assert (Hcand : Return c = Return [("name", VStr "Alice"); ("age", VStr "not-a-number")])
    by (rewrite <- Hc; reflexivity).
  injection Hcand as ->.
  exact (proj1 Hshape).
Defined.

(** C4 as it is stated fails on a validator that accepts with the output
    [undefined]: the result has neither a value nor issues. *)
Lemma success_carries_a_value_fails : ~ success_carries_a_value.
Proof.
  intros H.
  destruct (H Zod.Issue Lodash.baseGet Samples.alice Samples.alice_mapping
              Zod.to_undefined (mkMapResult VUndefined false None) eq_refl)
    as [(_ & Hdata & _) | (Hflag & _)].
  - now apply Hdata.
  - discriminate Hflag.
Qed.

Lemma issues_pass_through_witness :
  outcome (run_mapAndValidate Samples.bad_age Samples.bad_age_mapping Samples.bad_age_schema)
  = Return (mkMapResult VUndefined true (Some [Zod.invalid_type "number" ["age"]])).
Proof.
  apply (issues_pass_through Zod.Issue Lodash.baseGet Samples.bad_age
           Samples.bad_age_mapping Samples.bad_age_schema
           [("name", VStr "Alice"); ("age", VStr "not-a-number")]).
  - reflexivity.
  - reflexivity.
Defined.

Lemma transform_fault_propagates_witness :
  outcome (run_mapAndValidate Samples.alice Samples.throwing_mapping Samples.alice_schema)
  = Throw (VStr "TypeError: v.toUpperCase is not a function")
  /\ calls (run_mapAndValidate Samples.alice Samples.throwing_mapping Samples.alice_schema)
     = [CallTransform "name" (VStr "Alice"); CallTransform "age" (VNum 25)].
Proof.
  split; [|reflexivity].
  refine (proj1 (transform_fault_propagates Zod.Issue Lodash.baseGet Samples.alice
                   Samples.throwing_mapping Samples.alice_schema
                   "age" (mkPathMapping "user.age" None (Some Samples.toUpperCase))
                   Samples.toUpperCase (VNum 25) _ _ eq_refl eq_refl eq_refl)).
  simpl. tauto.
Defined.



Lemma falsy_entry_is_skipped_witness :
  prop_get Samples.sparse_mapping "nickname" = Some None
  /\ run_mapAndValidate Samples.alice Samples.sparse_mapping Samples.name_schema
     = run_mapAndValidate Samples.alice
         [("name", Some (Samples.entry_default "user.name" (VStr "Unknown")))]
         Samples.name_schema.
Proof.
  split; [reflexivity|].
  exact (proj2 (falsy_entry_is_skipped Zod.Issue Lodash.baseGet Samples.alice
                  Samples.sparse_mapping Samples.name_schema "nickname" eq_refl)).
Defined.

Lemma field_independence_witness :
  outcome (run_mapAndValidate Samples.alice Samples.alice_mapping Samples.alice_schema)
  = outcome (run_mapAndValidate Samples.alice Samples.alice_mapping_swapped
               Samples.alice_schema).
Proof.
  apply field_independence.
  - solve_wf.
  - unfold Samples.alice_mapping, Samples.alice_mapping_swapped.
    eapply perm_trans; [apply perm_skip, perm_swap | apply perm_swap].
  - solve_transforms_return.
  - apply object_order_insensitive.
Defined.

(** C6 as it is stated fails on a validator that reports the keys it does
    not recognize in the order the candidate object has them. *)
Lemma order_never_matters_fails : ~ order_never_matters.
Proof.
  intros H.
  assert (Hwf : wf_object Samples.ab_mapping) by solve_wf.
  assert (Hp : Permutation Samples.ab_mapping Samples.ba_mapping) by apply perm_swap.
  assert (Htot : transforms_return Lodash.baseGet (VObj []) Samples.ab_mapping)
    by solve_transforms_return.
  specialize (H Zod.Issue Lodash.baseGet (VObj []) Samples.ab_mapping Samples.ba_mapping
                Zod.strictObject_empty Hwf Hp Htot).
  discriminate H.
Qed.

Lemma mapAndValidate_deterministic_witness :
  let first := mapAndValidate_in Lodash.baseGet [] Samples.alice Samples.upper_mapping
                 Samples.name_schema in
  let h := [[("name", VStr "ALICE")]] in
  let second := mapAndValidate_in Lodash.baseGet h Samples.alice Samples.upper_mapping'
                  Samples.name_schema in
  outcome first = Return (mkMapResult (VObj [("name", VStr "ALICE")]) false None, h)
  /\ calls first = calls second
  /\ outcome second
     = Return (mkMapResult (VObj [("name", VStr "ALICE")]) false None,
               (h ++ [[("name", VStr "ALICE")]])%list).
Proof.
  intros first h second.
  assert (Hm : same_mapping Samples.upper_mapping Samples.upper_mapping').
  { constructor; [|constructor].
    split; [reflexivity|]. simpl.
    split; [reflexivity|]. split; [reflexivity|].
    intros v. now destruct v. }
  assert (Hs : same_schema Samples.name_schema Samples.name_schema)
    by (intros c; reflexivity).
  pose proof (mapAndValidate_deterministic Zod.Issue Lodash.baseGet Samples.alice
                Samples.upper_mapping Samples.upper_mapping'
                Samples.name_schema Samples.name_schema [] h Hm Hs) as [Hcalls _].
  split; [reflexivity|]. split; [exact Hcalls | reflexivity].
Defined.

(** ** What a returned result says about the validation *)

(** X1. A returned result tells what the validator did with the
    candidate object: without the error flag the validator accepted it and
    [data] is the validator's own output; with the flag the validator
    rejected it and [errors] is its list of issues. *)
Theorem validation_decides_result
        (Issue : Type) (baseGet : Value -> string -> Value) (obj : Value)
        (mapping : Mappings) (schema : ZodType Issue) (r : MapResult Issue) :
  outcome (mapAndValidate baseGet obj mapping schema) = Return r ->
  exists c,
    outcome (candidate baseGet obj mapping) = Return c
    /\ In (CallSafeParse c) (calls (mapAndValidate baseGet obj mapping schema))
    /\ ((isError r = false /\ errors r = None
         /\ safeParse schema c = ParseSuccess (data r))
        \/ (isError r = true /\ data r = VUndefined
            /\ exists issues, errors r = Some issues
                              /\ safeParse schema c = ParseFailure issues)).
Proof.
  intros Hr.
  destruct (outcome (candidate baseGet obj mapping)) as [c|x] eqn:Hout.
  - exists c. split; [reflexivity|].
    rewrite (mapAndValidate_Return Issue baseGet obj mapping schema c Hout) in *.
    simpl in Hr. injection Hr as <-.
    split; [apply in_or_app; right; now left|].
    destruct (safeParse schema c) as [d|issues]; simpl.
    + left. auto.
    + right. repeat split. now exists issues.
  - rewrite (mapAndValidate_Throw Issue baseGet obj mapping schema x Hout) in Hr.
    discriminate.
Qed.

(** ** The order of the calls *)

Section Calls.

Variable baseGet : Value -> string -> Value.
Variable obj : Value.
Variable mapping : Mappings.

(** The loop calls the declared transforms in key order, up to the one
    that throws. *)
Lemma extract_calls_prefix (keys : list string) :
  forall result : JsObject Value,
    match outcome (extract baseGet obj mapping keys result) with
    | Return _ =>
        calls (extract baseGet obj mapping keys result)
        = transform_calls baseGet obj mapping keys
    | Throw _ =>
        exists post,
          transform_calls baseGet obj mapping keys
          = (calls (extract baseGet obj mapping keys result) ++ post)%list
    end.
Proof.
  induction keys as [|key rest IH]; simpl; intros result; [reflexivity|].
  destruct (entry_of mapping key) as [e|]; [|apply IH].
  unfold bind, field_value.
  destruct (transform e) as [t|]; simpl.
  - destruct (t (get baseGet obj (path e) (defaultVal e))) as [v|x]; simpl.
    + specialize (IH (assign result key v)).
      destruct (outcome (extract baseGet obj mapping rest (assign result key v))).
      * now rewrite IH.
      * destruct IH as [post Hpost]. exists post. now rewrite Hpost.
    + now exists (transform_calls baseGet obj mapping rest).
  - apply IH.
Qed.

Lemma called_keys_app (l1 l2 : list Event) :
  called_keys (l1 ++ l2) = (called_keys l1 ++ called_keys l2)%list.
Proof. apply flat_map_app. Qed.

Lemma called_keys_transform_calls (keys : list string) (k : string) :
  In k (called_keys (transform_calls baseGet obj mapping keys)) -> In k keys.
Proof.
  induction keys as [|key rest IH]; simpl; [tauto|].
  rewrite called_keys_app, in_app_iff.
  intros [Hin | Hin]; [|right; now apply IH].
  destruct (entry_of mapping key) as [e|]; [|contradiction].
  destruct (transform e); simpl in Hin; tauto.
Qed.

Lemma called_keys_NoDup (keys : list string) :
  NoDup keys -> NoDup (called_keys (transform_calls baseGet obj mapping keys)).
Proof.
  induction keys as [|key rest IH]; simpl; intros Hnd; [constructor|].
  inversion Hnd as [|? ? Hnotin Hnd']; subst.
  rewrite called_keys_app.
  destruct (entry_of mapping key) as [e|]; [|now apply IH].
  destruct (transform e); simpl; [|now apply IH].
  constructor; [|now apply IH].
  intros Hin. now apply Hnotin, called_keys_transform_calls.
Qed.

(** Nothing is called after a transform that throws. *)
Lemma extract_thrown_last (keys : list string) :
  forall (result : JsObject Value) (key : string) (arg x : Value)
         (e : PathMapping) (t : Value -> Exc Value),
    In (CallTransform key arg) (calls (extract baseGet obj mapping keys result)) ->
    entry_of mapping key = Some e -> transform e = Some t -> t arg = Throw x ->
    exists pre,
      calls (extract baseGet obj mapping keys result)
      = (pre ++ [CallTransform key arg])%list.
Proof.
  induction keys as [|key0 rest IH]; simpl; intros result key arg x e t Hin He Ht Hx;
    [tauto|].
  destruct (entry_of mapping key0) as [e0|] eqn:He0; [|eauto].
  unfold bind in *. unfold field_value in *.
  destruct (transform e0) as [t0|] eqn:Ht0; simpl in *.
  - destruct (t0 (get baseGet obj (path e0) (defaultVal e0))) as [v|y] eqn:Hcall;
      simpl in *.
    + destruct Hin as [Heq | Hin].
      * injection Heq as <- <-. congruence.
      * destruct (IH _ _ _ _ _ _ Hin He Ht Hx) as [pre Hpre].
        exists (CallTransform key0 (get baseGet obj (path e0) (defaultVal e0)) :: pre).
        now rewrite Hpre.
    + destruct Hin as [Heq | []]. rewrite Heq. now exists [].
  - eauto.
Qed.

Variable Issue : Type.
Variable schema : ZodType Issue.

(** X2. The transforms are called in the order of the keys of the
    mapping, each on the value read for its entry.  When none throws, the
    validator is then called once, on the assembled object, and nothing
    else is called; when one throws, the calls made are the first of that
    sequence. *)
Theorem calls_in_key_order :
  match outcome (candidate baseGet obj mapping) with
  | Return c =>
      calls (mapAndValidate baseGet obj mapping schema)
      = (transform_calls baseGet obj mapping (own_keys mapping)
         ++ [CallSafeParse c])%list
  | Throw _ =>
      exists post,
        transform_calls baseGet obj mapping (own_keys mapping)
        = (calls (mapAndValidate baseGet obj mapping schema) ++ post)%list
  end.
Proof.
  pose proof (extract_calls_prefix (own_keys mapping) []) as Hpre.
  fold (candidate baseGet obj mapping) in Hpre.
  destruct (outcome (candidate baseGet obj mapping)) as [c|x] eqn:Hout.
  - rewrite (mapAndValidate_Return Issue baseGet obj mapping schema c Hout). simpl.
    now rewrite Hpre.
  - now rewrite (mapAndValidate_Throw Issue baseGet obj mapping schema x Hout).
Qed.

(** X3. A transform that throws is the last thing the call does: no
    transform of a later key is called after it. *)
Theorem nothing_called_after_fault
        (key : string) (e : PathMapping) (t : Value -> Exc Value) (arg x : Value) :
  In (CallTransform key arg) (calls (mapAndValidate baseGet obj mapping schema)) ->
  entry_of mapping key = Some e -> transform e = Some t -> t arg = Throw x ->
  exists pre,
    calls (mapAndValidate baseGet obj mapping schema)
    = (pre ++ [CallTransform key arg])%list.
Proof.
  intros Hin He Ht Hx.
  assert (Hcand : In (CallTransform key arg) (calls (candidate baseGet obj mapping))).
  { destruct (outcome (candidate baseGet obj mapping)) as [c|y] eqn:Hout.
    - rewrite (mapAndValidate_Return Issue baseGet obj mapping schema c Hout) in Hin.
      simpl in Hin.
      apply in_app_or in Hin as [Hin | [Heq | []]]; [assumption | discriminate].
    - now rewrite (mapAndValidate_Throw Issue baseGet obj mapping schema y Hout) in Hin. }
  pose proof (extract_thrown baseGet obj mapping _ _ key arg x e t Hcand He Ht Hx) as Hout.
  rewrite (mapAndValidate_Throw Issue baseGet obj mapping schema x Hout). simpl.
  exact (extract_thrown_last _ _ key arg x e t Hcand He Ht Hx).
Qed.

(** X4. No transform is called twice in one call: the keys of the
    transform calls logged are pairwise distinct. *)
Theorem transform_called_at_most_once :
  wf_object mapping ->
  NoDup (called_keys (calls (mapAndValidate baseGet obj mapping schema))).
Proof.
  intros Hwf.
  pose proof (called_keys_NoDup (own_keys mapping) Hwf) as Hnd.
  pose proof (extract_calls_prefix (own_keys mapping) []) as Hpre.
  fold (candidate baseGet obj mapping) in Hpre.
  destruct (outcome (candidate baseGet obj mapping)) as [c|x] eqn:Hout.
  - rewrite (mapAndValidate_Return Issue baseGet obj mapping schema c Hout). simpl.
    rewrite Hpre, called_keys_app. simpl. now rewrite app_nil_r.
  - rewrite (mapAndValidate_Throw Issue baseGet obj mapping schema x Hout). simpl.
    destruct Hpre as [post Hpost].
    rewrite Hpost, called_keys_app in Hnd.
    now apply NoDup_app_remove_r in Hnd.
Qed.

End Calls.

(** ** Fields, sources and mappings put together *)

Section Fields.

Variable baseGet : Value -> string -> Value.

(** X5. The candidate value of a key depends on the entry under that
    key and on the source, not on the rest of the mapping: two mappings
    with the same entry under a key store the same under it, and for a key
    other than [__proto__] that is a value. *)
Theorem field_depends_on_its_entry
        (obj : Value) (m1 m2 : Mappings) (key : string) (e : PathMapping)
        (c1 c2 : JsObject Value) :
  wf_object m1 -> wf_object m2 ->
  entry_of m1 key = Some e -> entry_of m2 key = Some e ->
  outcome (candidate baseGet obj m1) = Return c1 ->
  outcome (candidate baseGet obj m2) = Return c2 ->
  prop_get c1 key = prop_get c2 key
  /\ (key <> "__proto__" -> exists v, prop_get c1 key = Some v).
Proof.
  intros Hwf1 Hwf2 He1 He2 Hout1 Hout2.
  destruct (String.eqb key "__proto__") eqn:Hkey.
  - apply String.eqb_eq in Hkey. subst key. split; [|tauto].
    assert (Hnot : forall m c, wf_object m -> outcome (candidate baseGet obj m) = Return c ->
                               prop_get c "__proto__" = None).
    { intros m c Hwf Hout. apply prop_get_not_In.
      rewrite (candidate_keys baseGet obj m c Hwf Hout).
      intros Hin. now apply (stored_keys_entry m _ Hwf) in Hin as [Hne _]. }
    now rewrite (Hnot m1 c1), (Hnot m2 c2).
  - apply String.eqb_neq in Hkey.
    pose proof (candidate_field baseGet obj m1 key e c1 Hwf1 He1 Hkey Hout1) as H1.
    pose proof (candidate_field baseGet obj m2 key e c2 Hwf2 He2 Hkey Hout2) as H2.
    destruct (transform e) as [t|].
    + destruct H1 as (v1 & Ht1 & Hc1), H2 as (v2 & Ht2 & Hc2).
      split; [congruence | eauto].
    + split; [congruence | eauto].
Qed.

(** The loop reads the source only through the values of the paths. *)
Lemma extract_same_reads (obj1 obj2 : Value) (mapping : Mappings) (keys : list string) :
  forall result : JsObject Value,
    (forall key e, entry_of mapping key = Some e ->
                   get baseGet obj1 (path e) (defaultVal e)
                   = get baseGet obj2 (path e) (defaultVal e)) ->
    extract baseGet obj1 mapping keys result = extract baseGet obj2 mapping keys result.
Proof.
  induction keys as [|key rest IH]; simpl; intros result Hreads; [reflexivity|].
  destruct (entry_of mapping key) as [e|] eqn:He; [|now apply IH].
  unfold field_value. rewrite (Hreads key e He). unfold bind.
  destruct (outcome _); [|reflexivity].
  now rewrite IH.
Qed.

(** X8. The source is read at the mapped paths only: two sources from
    which every entry of the mapping reads the same value give the same
    run, whatever else they hold. *)
Theorem source_read_at_paths_only
        (Issue : Type) (obj1 obj2 : Value) (mapping : Mappings) (schema : ZodType Issue) :
  (forall key e, entry_of mapping key = Some e ->
                 get baseGet obj1 (path e) (defaultVal e)
                 = get baseGet obj2 (path e) (defaultVal e)) ->
  mapAndValidate baseGet obj1 mapping schema = mapAndValidate baseGet obj2 mapping schema.
Proof.
  intros Hreads. unfold mapAndValidate, candidate.
  now rewrite (extract_same_reads obj1 obj2 mapping _ _ Hreads).
Qed.

Variable obj : Value.

Lemma extract_no_entries (mapping : Mappings) (keys : list string) :
  forall result : JsObject Value,
    (forall key, entry_of mapping key = None) ->
    extract baseGet obj mapping keys result = ret result.
Proof.
  induction keys as [|key rest IH]; simpl; intros result Hnone; [reflexivity|].
  rewrite Hnone. now apply IH.
Qed.

(** X7. A mapping none of whose keys holds an entry object behaves as
    the empty mapping: no transform is called and the validator is given
    the empty object. *)
Theorem mapping_without_entries
        (Issue : Type) (mapping : Mappings) (schema : ZodType Issue) :
  (forall key, entry_of mapping key = None) ->
  mapAndValidate baseGet obj mapping schema
  = mkRun [CallSafeParse []] (Return (to_result (safeParse schema []))).
Proof.
  intros Hnone. unfold mapAndValidate, candidate.
  now rewrite (extract_no_entries mapping _ _ Hnone).
Qed.

Lemma prop_set_app_fresh {A : Type} (o1 o2 : JsObject A) (k : string) (v : A) :
  ~ In k (own_keys o1) -> prop_set (o1 ++ o2)%list k v = (o1 ++ prop_set o2 k v)%list.
Proof.
  induction o1 as [|[k' v'] o1 IH]; simpl; intros Hnotin; [reflexivity|].
  destruct (String.eqb k k') eqn:E.
  - apply String.eqb_eq in E. subst. tauto.
  - rewrite IH; tauto.
Qed.

Lemma assign_app_fresh {A : Type} (o1 o2 : JsObject A) (k : string) (v : A) :
  ~ In k (own_keys o1) -> assign (o1 ++ o2)%list k v = (o1 ++ assign o2 k v)%list.
Proof.
  intros Hnotin. unfold assign.
  destruct (String.eqb k "__proto__"); [reflexivity|].
  now apply prop_set_app_fresh.
Qed.

(** Keys that are new to an object are added behind it. *)
Lemma extract_frame (mapping : Mappings) (keys : list string) :
  forall (front result c : JsObject Value),
    (forall k, In k keys -> ~ In k (own_keys front)) ->
    outcome (extract baseGet obj mapping keys result) = Return c ->
    outcome (extract baseGet obj mapping keys (front ++ result)%list)
    = Return (front ++ c)%list.
Proof.
  induction keys as [|key rest IH]; simpl; intros front result c Hfresh Hout.
  - now injection Hout as <-.
  - destruct (entry_of mapping key) as [e|]; [|apply IH; auto].
    unfold bind in *.
    destruct (outcome (field_value baseGet obj key e)) as [v|x]; simpl in *;
      [|discriminate].
    rewrite assign_app_fresh by auto.
    apply IH; auto.
Qed.

Lemma extract_app (mapping : Mappings) (keys1 keys2 : list string) :
  forall (result c : JsObject Value),
    outcome (extract baseGet obj mapping keys1 result) = Return c ->
    outcome (extract baseGet obj mapping (keys1 ++ keys2) result)
    = outcome (extract baseGet obj mapping keys2 c).
Proof.
  induction keys1 as [|key rest IH]; simpl; intros result c Hout.
  - now injection Hout as <-.
  - destruct (entry_of mapping key) as [e|]; [|now apply IH].
    unfold bind in *.
    destruct (outcome (field_value baseGet obj key e)) as [v|x]; simpl in *;
      [|discriminate].
    now apply IH.
Qed.

Lemma prop_get_app {A : Type} (o1 o2 : JsObject A) (k : string) :
  prop_get (o1 ++ o2)%list k
  = match prop_get o1 k with Some v => Some v | None => prop_get o2 k end.
Proof.
  induction o1 as [|[k' v'] o1 IH]; simpl; [reflexivity|].
  now destruct (String.eqb k k').
Qed.

Lemma prop_get_is_Some {A : Type} (o : JsObject A) (k : string) :
  In k (own_keys o) -> exists v, prop_get o k = Some v.
Proof.
  induction o as [|[k' v'] o IH]; simpl; [tauto|].
  intros [-> | Hin].
  - rewrite String.eqb_refl. eauto.
  - destruct (String.eqb k k'); eauto.
Qed.

Lemma wf_object_app {A : Type} (o1 o2 : JsObject A) :
  wf_object (o1 ++ o2)%list ->
  wf_object o1 /\ wf_object o2
  /\ (forall k, In k (own_keys o2) -> ~ In k (own_keys o1)).
Proof.
  unfold wf_object, own_keys. rewrite map_app. intros Hnd.
  split; [now apply NoDup_app_remove_r in Hnd|].
  split; [now apply NoDup_app_remove_l in Hnd|].
  intros k H2 H1.
  induction (map fst o1) as [|k1 l1 IH]; simpl in *; [tauto|].
  inversion Hnd as [|? ? Hnotin Hnd']; subst.
  destruct H1 as [-> | H1]; [|now apply IH].
  apply Hnotin, in_or_app. now right.
Qed.

(** X6. Mappings compose: the candidate object of two mappings put one
    after the other is the candidate object of the first followed by that
    of the second. *)
Theorem candidate_of_joined_mappings (m1 m2 : Mappings) (c1 c2 : JsObject Value) :
  wf_object (m1 ++ m2)%list ->
  outcome (candidate baseGet obj m1) = Return c1 ->
  outcome (candidate baseGet obj m2) = Return c2 ->
  outcome (candidate baseGet obj (m1 ++ m2)%list) = Return (c1 ++ c2)%list.
Proof.
  intros Hwf Hout1 Hout2.
  destruct (wf_object_app m1 m2 Hwf) as (Hwf1 & Hwf2 & Hdisj).
  unfold candidate in *. unfold own_keys at 1. rewrite map_app.
  fold (own_keys m1) (own_keys m2).
  assert (H1 : outcome (extract baseGet obj (m1 ++ m2)%list (own_keys m1) []) = Return c1).
  { rewrite <- Hout1. f_equal. apply extract_ext.
    intros k Hk. unfold entry_of. rewrite prop_get_app.
    destruct (prop_get_is_Some m1 k Hk) as [slot Hslot]. now rewrite Hslot. }
  rewrite (extract_app _ _ _ _ _ H1).
  assert (H2 : extract baseGet obj (m1 ++ m2)%list (own_keys m2) c1
               = extract baseGet obj m2 (own_keys m2) c1).
  { apply extract_ext.
    intros k Hk. unfold entry_of. rewrite prop_get_app.
    now rewrite (prop_get_not_In m1 k (Hdisj k Hk)). }
  rewrite H2.
  rewrite <- (app_nil_r c1) at 1.
  apply extract_frame; [|assumption].
  intros k Hk Hin.
  fold (candidate baseGet obj m1) in Hout1.
  rewrite (candidate_keys baseGet obj m1 c1 Hwf1 Hout1) in Hin.
  apply (Hdisj k Hk).
  now apply (stored_keys_entry m1 k Hwf1) in Hin as (_ & Hin & _).
Qed.

End Fields.

(** ** These properties on the samples *)

Lemma validation_decides_result_witness :
  exists c,
    outcome (candidate Lodash.baseGet Samples.alice Samples.alice_mapping) = Return c
    /\ safeParse Samples.alice_schema c
       = ParseSuccess (VObj [("name", VStr "Alice"); ("email", VStr "email@gmail.com");
                             ("age", VNum 25)]).
Proof.
  pose (r := mkMapResult (Issue := Zod.Issue)
               (VObj [("name", VStr "Alice"); ("email", VStr "email@gmail.com");
                      ("age", VNum 25)])
               false None).
  destruct (validation_decides_result Zod.Issue Lodash.baseGet Samples.alice
              Samples.alice_mapping Samples.alice_schema r eq_refl)
    as (c & Hc & _ & [(_ & _ & Hok) | (Hflag & _)]).
  - exists c. split; assumption.
  - discriminate Hflag.
Defined.

Lemma nothing_called_after_fault_witness :
  exists pre,
    calls (run_mapAndValidate Samples.alice Samples.throwing_mapping Samples.alice_schema)
    = (pre ++ [CallTransform "age" (VNum 25)])%list.
Proof.
  refine (nothing_called_after_fault Lodash.baseGet Samples.alice
            Samples.throwing_mapping Zod.Issue Samples.alice_schema
            "age" (mkPathMapping "user.age" None (Some Samples.toUpperCase))
            Samples.toUpperCase (VNum 25)
            (VStr "TypeError: v.toUpperCase is not a function")
            _ eq_refl eq_refl eq_refl).
  simpl. tauto.
Defined.

Lemma transform_called_at_most_once_witness :
  NoDup (called_keys
           (calls (run_mapAndValidate Samples.alice Samples.throwing_mapping
                     Samples.alice_schema))).
Proof.
  apply transform_called_at_most_once. solve_wf.
Defined.

Lemma field_depends_on_its_entry_witness :
  prop_get [("name", VStr "Alice"); ("email", VStr "email@gmail.com"); ("age", VNum 25)]
           "name"
  = prop_get [("name", VStr "Alice")] "name".
Proof.
  refine (proj1 (field_depends_on_its_entry Lodash.baseGet Samples.alice
                   Samples.alice_mapping Samples.sparse_mapping
                   "name" (Samples.entry_default "user.name" (VStr "Unknown"))
                   _ _ _ _ eq_refl eq_refl eq_refl eq_refl)); solve_wf.
Defined.

Lemma candidate_of_joined_mappings_witness :
  outcome (candidate Lodash.baseGet Samples.alice
             (Samples.upper_mapping ++ Samples.age_mapping)%list)
  = Return [("name", VStr "ALICE"); ("age", VNum 25)].
Proof.
  apply (candidate_of_joined_mappings Lodash.baseGet Samples.alice
           Samples.upper_mapping Samples.age_mapping
           [("name", VStr "ALICE")] [("age", VNum 25)]).
  - solve_wf.
  - reflexivity.
  - reflexivity.
Defined.

Lemma mapping_without_entries_witness :
  run_mapAndValidate Samples.alice Samples.hollow_mapping Samples.name_schema
  = mkRun [CallSafeParse []]
          (Return (mkMapResult VUndefined true (Some [Zod.invalid_type "string" ["name"]]))).
Proof.
  apply (mapping_without_entries Lodash.baseGet Samples.alice Zod.Issue
           Samples.hollow_mapping Samples.name_schema).
  intros key. unfold entry_of. simpl.
  destruct (String.eqb key "name"); [reflexivity|].
  destruct (String.eqb key "age"); reflexivity.
Defined.

Lemma source_read_at_paths_only_witness :
  run_mapAndValidate Samples.alice Samples.alice_mapping Samples.alice_schema
  = run_mapAndValidate Samples.alice_extra Samples.alice_mapping Samples.alice_schema.
Proof.
  apply source_read_at_paths_only.
  intros key e He. unfold entry_of in He. simpl in He.
  destruct (String.eqb key "name"); [injection He as <-; reflexivity|].
  destruct (String.eqb key "email"); [injection He as <-; reflexivity|].
  destruct (String.eqb key "age"); [injection He as <-; reflexivity|].
  discriminate.
Defined.
